(** * nvbio/strings/alphabet.h: sequence alphabets, traits and codecs

    A shallow embedding of the alphabet layer of nvbio: the [Alphabet]
    enumeration, the [AlphabetTraits] specialisations, the runtime query
    [bits_per_symbol], the scalar codec [to_char] / [from_char], the bulk
    conversions [to_string] / [from_string] and the lazy iterator adaptors
    built on [transform_iterator]. *)

From Stdlib Require Import ZArith Lia Ascii String.
From stdpp Require Import base numbers option list strings.

Local Open Scope Z_scope.

(** ** Machine integers

    [uint8] and [uint32] values are integers in their range; the header does
    no arithmetic on them, so no wrap-around appears below. *)

Definition uint8 : Type := Z.
Definition uint32 : Type := Z.

Definition uint8_range (v : Z) : Prop := 0 <= v < 2 ^ 8.

(** ** The alphabet identifier (alphabet.h, lines 62-68) *)

Inductive Alphabet : Type :=
  | DNA
  | DNA_N
  | DNA_IUPAC
  | PROTEIN.

(** The enumerator values written in the enum ([DNA = 0u], ...). *)
Definition Alphabet_value (a : Alphabet) : uint32 :=
  match a with
  | DNA => 0
  | DNA_N => 1
  | DNA_IUPAC => 2
  | PROTEIN => 3
  end.

(** Reading a stored value back as an enumerator, when it names one. *)
Definition Alphabet_of_value (v : uint32) : option Alphabet :=
  if v =? 0 then Some DNA
  else if v =? 1 then Some DNA_N
  else if v =? 2 then Some DNA_IUPAC
  else if v =? 3 then Some PROTEIN
  else None.

(** ** The traits class (alphabet.h, lines 72-101)

    Each specialisation [AlphabetTraits<A>] holds two [static const uint32]
    members. *)

Record Traits : Type := mkTraits {
  SYMBOL_SIZE : uint32;
  SYMBOL_COUNT : uint32
}.

Definition AlphabetTraits (a : Alphabet) : Traits :=
  match a with
  | DNA => {| SYMBOL_SIZE := 2; SYMBOL_COUNT := 4 |}
  | DNA_N => {| SYMBOL_SIZE := 4; SYMBOL_COUNT := 5 |}
  | DNA_IUPAC => {| SYMBOL_SIZE := 4; SYMBOL_COUNT := 16 |}
  | PROTEIN => {| SYMBOL_SIZE := 8; SYMBOL_COUNT := 24 |}
  end.

(** ** The runtime query (alphabet.h, lines 103-111)

    The argument is the value held by an [Alphabet] variable; the chain of
    conditionals compares it with each enumerator and ends in [8u]. *)

Definition bits_per_symbol (alphabet : uint32) : uint32 :=
  if alphabet =? Alphabet_value DNA then 2
  else if alphabet =? Alphabet_value DNA_N then 4
  else if alphabet =? Alphabet_value DNA_IUPAC then 4
  else if alphabet =? Alphabet_value PROTEIN then 8
  else 8.

(** The least number of bits in which [count] distinct codes [0 .. count-1]
    can be told apart, that is the ceiling of the binary logarithm. *)
Definition min_bits (count : Z) : Z := Z.log2_up count.

(** ** Buffers and position-addressable sequences

    A caller-owned buffer is a list of cells addressed from the pointer that
    was passed.  The conversions do no bounds checking: reading or writing
    past the extent of a buffer has no defined result, which is [None]
    here. *)

Definition store {T : Type} (buf : list T) (i : nat) (x : T) : option (list T) :=
  if decide (i < length buf)%nat then Some (<[i:=x]> buf) else None.

(** [deref it i] is the read [it[i]] of a random-access iterator. *)
Class Iterator (It T : Type) := deref : It -> nat -> option T.
Global Hint Mode Iterator ! - : typeclass_instances.

Global Instance list_Iterator {T : Type} : Iterator (list T) T :=
  fun l i => l !! i.

(** Modelled from the spec: [transform_iterator] and
    [make_transform_iterator] of nvbio/basic/transform_iterator.h, which is
    not among the sources.  The lazy transform-cursor wraps an underlying
    sequence with a stateless per-element mapping function that is
    evaluated on dereference; it does no bounds checking of its own. *)
Record transform_iterator (It A B : Type) : Type := make_transform_iterator {
  base : It;
  functor : A -> option B
}.
Arguments make_transform_iterator {It A B} _ _.
Arguments base {It A B} _.
Arguments functor {It A B} _.

Global Instance transform_iterator_Iterator {It A B : Type} `{!Iterator It A} :
  Iterator (transform_iterator It A B) B :=
  fun it i => deref (base it) i ≫= functor it.

(** ** The codec tables

    The letters of each alphabet in code order, as the header lists them
    (alphabet.h, lines 43-54 and 64-67). *)

Definition symbol_table (a : Alphabet) : list ascii :=
  list_ascii_of_string
    match a with
    | DNA => "ACGT"
    | DNA_N => "ACGTN"
    | DNA_IUPAC => "=ACMGRSVTWYHKDBN"
    | PROTEIN => "ACDEFGHIKLMNOPQRSTVWYBZX"
    end.

(** Position of the first occurrence of [c] in a table. *)
Fixpoint table_index (c : ascii) (table : list ascii) : option nat :=
  match table with
  | [] => None
  | x :: rest => if Ascii.eqb c x then Some O else S <$> table_index c rest
  end.

(** The string terminator ['\0']. *)
Definition NUL : ascii := Ascii.zero.

(** Modelled from the spec: [to_char<ALPHABET>], declared at alphabet.h
    lines 115-116 and defined in nvbio/strings/alphabet_inl.h, which is not
    among the sources.  Encoding has the precondition [c < SYMBOL_COUNT] and
    returns the alphabet's fixed character for that code by direct table
    lookup; a code that violates the precondition has no defined result. *)
Definition to_char (a : Alphabet) (c : uint8) : option ascii :=
  if (0 <=? c) && (c <? SYMBOL_COUNT (AlphabetTraits a))
  then symbol_table a !! Z.to_nat c
  else None.

Section Codec.

(** The code that decoding gives to a character outside the alphabet.  The
    spec defines one per alphabet and leaves its value open, so everything
    below holds for any choice. *)
Variable sentinel : Alphabet -> uint8.

(** Modelled from the spec: [from_char<ALPHABET>], declared at alphabet.h
    lines 120-121 and defined in nvbio/strings/alphabet_inl.h, which is not
    among the sources.  Decoding maps a letter of the alphabet to its code
    and every other character to the alphabet's sentinel code. *)
Definition from_char (a : Alphabet) (c : ascii) : uint8 :=
  match table_index c (symbol_table a) with
  | Some i => Z.of_nat i
  | None => sentinel a
  end.

(** Modelled from the spec: [to_string<ALPHABET>(begin, n, string)],
    declared at alphabet.h lines 125-129 and defined in alphabet_inl.h.
    Encode-range writes [n] characters, [string[i] = to_char(begin[i])] for
    [i] from [0], and appends no terminator. *)
Fixpoint to_string_loop {It : Type} `{!Iterator It uint8}
    (a : Alphabet) (begin : It) (i n : nat) (string : list ascii)
    : option (list ascii) :=
  match n with
  | O => Some string
  | S n' =>
      s ← deref begin i;
      c ← to_char a s;
      string' ← store string i c;
      to_string_loop a begin (S i) n' string'
  end.

Definition to_string_n {It : Type} `{!Iterator It uint8}
    (a : Alphabet) (begin : It) (n : nat) (string : list ascii)
    : option (list ascii) :=
  to_string_loop a begin 0 n string.

(** Modelled from the spec: [from_string<ALPHABET>(begin, end, symbols)],
    declared at alphabet.h lines 141-145 and defined in alphabet_inl.h.
    The two pointers are positions [begin] and [end_] in the character
    memory [mem]; decode-range writes [end_ - begin] codes,
    [symbols[i] = from_char(begin[i])]. *)
Fixpoint from_string_loop (a : Alphabet) (mem : list ascii) (begin : nat)
    (i n : nat) (symbols : list uint8) : option (list uint8) :=
  match n with
  | O => Some symbols
  | S n' =>
      c ← mem !! (begin + i)%nat;
      symbols' ← store symbols i (from_char a c);
      from_string_loop a mem begin (S i) n' symbols'
  end.

Definition from_string_range (a : Alphabet) (mem : list ascii)
    (begin end_ : nat) (symbols : list uint8) : option (list uint8) :=
  from_string_loop a mem begin 0 (end_ - begin) symbols.

(** Modelled from the spec: [from_string<ALPHABET>(begin, symbols)],
    declared at alphabet.h lines 149-152 and defined in alphabet_inl.h.
    [chars] is the memory from [begin] on; decoding walks it, writing
    [symbols[i] = from_char(begin[i])], and stops at the terminator.  A
    memory with no terminator is read past its end. *)
Fixpoint from_string_nul_loop (a : Alphabet) (chars : list ascii) (i : nat)
    (symbols : list uint8) : option (list uint8) :=
  match chars with
  | [] => None
  | c :: rest =>
      if Ascii.eqb c NUL then Some symbols
      else
        symbols' ← store symbols i (from_char a c);
        from_string_nul_loop a rest (S i) symbols'
  end.

Definition from_string_nul (a : Alphabet) (begin : list ascii)
    (symbols : list uint8) : option (list uint8) :=
  from_string_nul_loop a begin 0 symbols.

(** ** Conversion functors and lazy adaptors (alphabet.h, lines 156-198)

    A functor object has no state; it is its call operator. *)

Definition to_char_functor (a : Alphabet) : uint8 -> option ascii :=
  fun c => to_char a c.

Definition from_char_functor (a : Alphabet) : ascii -> option uint8 :=
  fun c => Some (from_char a c).

Definition to_string_it {It : Type} (a : Alphabet) (it : It)
    : transform_iterator It uint8 ascii :=
  make_transform_iterator it (to_char_functor a).

Definition from_string_it {It : Type} (a : Alphabet) (it : It)
    : transform_iterator It ascii uint8 :=
  make_transform_iterator it (from_char_functor a).

End Codec.

(** * Properties *)

(** ** The identifier *)

Ltac by_alphabet a := destruct a; vm_compute; try reflexivity; try congruence.

Lemma Alphabet_of_value_value (a : Alphabet) :
  Alphabet_of_value (Alphabet_value a) = Some a.
Proof. by_alphabet a. Qed.

Lemma Alphabet_value_inj (a b : Alphabet) :
  Alphabet_value a = Alphabet_value b -> a = b.
Proof.
  intros E.
  assert (H : Some a = Some b)
    by (rewrite <- !Alphabet_of_value_value; now rewrite E).
  now inversion H.
Qed.

Lemma Alphabet_value_range (a : Alphabet) : 0 <= Alphabet_value a <= 3.
Proof. destruct a; simpl; lia. Qed.

Lemma Alphabet_of_value_Some (v : uint32) (a : Alphabet) :
  Alphabet_of_value v = Some a <-> v = Alphabet_value a.
Proof.
  split.
  - unfold Alphabet_of_value.
    repeat match goal with
    | |- context [v =? ?n] =>
        destruct (Z.eqb_spec v n) as [->|_]; [now intros [= <-]|]
    end.
    discriminate.
  - intros ->. apply Alphabet_of_value_value.
Qed.

(** C5: the four alphabet identifiers have the numeric identities
    [DNA = 0], [DNA_N = 1], [DNA_IUPAC = 2] and [PROTEIN = 3]. *)
Theorem Alphabet_numeric_identities :
  Alphabet_value DNA = 0 /\ Alphabet_value DNA_N = 1 /\
  Alphabet_value DNA_IUPAC = 2 /\ Alphabet_value PROTEIN = 3.
Proof. repeat split. Qed.

(** ** Traits and the runtime query *)

(** C2: the traits map each alphabet to exactly its pair
    (SYMBOL_SIZE, SYMBOL_COUNT): DNA to (2,4), DNA_N to (4,5), DNA_IUPAC to
    (4,16) and PROTEIN to (8,24). *)
Theorem AlphabetTraits_table :
  AlphabetTraits DNA = mkTraits 2 4 /\
  AlphabetTraits DNA_N = mkTraits 4 5 /\
  AlphabetTraits DNA_IUPAC = mkTraits 4 16 /\
  AlphabetTraits PROTEIN = mkTraits 8 24.
Proof. repeat split. Qed.

(** C3: for each of the four alphabets the runtime query returns the
    compile-time SYMBOL_SIZE. *)
Theorem bits_per_symbol_traits (a : Alphabet) :
  bits_per_symbol (Alphabet_value a) = SYMBOL_SIZE (AlphabetTraits a).
Proof. by_alphabet a. Qed.

(** C4: on every value that is none of the four enumerators the runtime
    query returns 8; it is a total function, so it cannot fail. *)
Theorem bits_per_symbol_unrecognized (v : uint32) :
  (forall a : Alphabet, v <> Alphabet_value a) -> bits_per_symbol v = 8.
Proof.
  intros Hv. unfold bits_per_symbol.
  repeat match goal with
  | |- context [v =? Alphabet_value ?a] =>
      destruct (Z.eqb_spec v (Alphabet_value a)) as [E|_];
      [exfalso; exact (Hv a E)|]
  end.
  reflexivity.
Qed.

Lemma bits_per_symbol_unrecognized_witness :
  (forall a : Alphabet, 7 <> Alphabet_value a) /\ bits_per_symbol 7 = 8.
Proof.
  assert (H : forall a : Alphabet, 7 <> Alphabet_value a)
    by (intros a; destruct a; discriminate).
  split; [exact H | exact (bits_per_symbol_unrecognized 7 H)].
Defined.

Lemma bits_per_symbol_values (v : uint32) :
  bits_per_symbol v = 2 \/ bits_per_symbol v = 4 \/ bits_per_symbol v = 8.
Proof.
  unfold bits_per_symbol.
  repeat match goal with
  | |- context [if ?b then _ else _] => destruct b; auto
  end.
Qed.

(** ** Bit widths against symbol counts *)

Lemma valid_code_uint8 (a : Alphabet) (v : Z) :
  0 <= v < SYMBOL_COUNT (AlphabetTraits a) -> uint8_range v.
Proof. unfold uint8_range. destruct a; simpl; lia. Qed.

Lemma min_bits_spec (count w : Z) :
  0 < count -> count <= 2 ^ w <-> min_bits count <= w.
Proof. intros Hc. unfold min_bits. now apply Z.log2_up_le_pow2. Qed.

Lemma SYMBOL_COUNT_pos (a : Alphabet) : 0 < SYMBOL_COUNT (AlphabetTraits a).
Proof. destruct a; simpl; lia. Qed.

Lemma SYMBOL_SIZE_pow2 (a : Alphabet) :
  SYMBOL_SIZE (AlphabetTraits a) =
  2 ^ Z.log2_up (min_bits (SYMBOL_COUNT (AlphabetTraits a))).
Proof. by_alphabet a. Qed.

(** C9, refuted as stated: the width of DNA_N is 4 bits although 3 bits
    tell its 5 codes apart (and PROTEIN takes 8 bits where 5 would do). *)
Lemma SYMBOL_SIZE_not_minimal :
  SYMBOL_SIZE (AlphabetTraits DNA_N) <> min_bits (SYMBOL_COUNT (AlphabetTraits DNA_N)) /\
  SYMBOL_SIZE (AlphabetTraits PROTEIN) <> min_bits (SYMBOL_COUNT (AlphabetTraits PROTEIN)).
Proof. split; vm_compute; discriminate. Qed.

(** C9, amended: SYMBOL_SIZE is a power of two, it is at least the minimal
    number of bits for SYMBOL_COUNT codes, no smaller power of two is, and
    it equals that minimum exactly for DNA and DNA_IUPAC. *)
Theorem SYMBOL_SIZE_least_pow2 (a : Alphabet) :
  (exists e, 0 <= e /\ SYMBOL_SIZE (AlphabetTraits a) = 2 ^ e) /\
  min_bits (SYMBOL_COUNT (AlphabetTraits a)) <= SYMBOL_SIZE (AlphabetTraits a) /\
  (forall e, 0 <= e ->
     min_bits (SYMBOL_COUNT (AlphabetTraits a)) <= 2 ^ e ->
     SYMBOL_SIZE (AlphabetTraits a) <= 2 ^ e) /\
  (SYMBOL_SIZE (AlphabetTraits a) = min_bits (SYMBOL_COUNT (AlphabetTraits a))
   <-> a = DNA \/ a = DNA_IUPAC).
Proof.
  split; [|split; [|split]].
  - exists (Z.log2_up (min_bits (SYMBOL_COUNT (AlphabetTraits a)))).
    split; [apply Z.log2_up_nonneg | apply SYMBOL_SIZE_pow2].
  - destruct a; vm_compute; discriminate.
  - intros e He Hm. rewrite SYMBOL_SIZE_pow2.
    apply Z.pow_le_mono_r; [lia|].
    apply Z.log2_up_le_pow2; [|exact Hm].
    destruct a; vm_compute; reflexivity.
  - split.
    + destruct a; auto; vm_compute; discriminate.
    + intros [-> | ->]; reflexivity.
Qed.

(** C10: the symbol count never exceeds what SYMBOL_SIZE bits can hold, so
    every valid code lies below [2 ^ SYMBOL_SIZE] and has no bit set at or
    above position SYMBOL_SIZE. *)
Theorem SYMBOL_COUNT_fits_SYMBOL_SIZE (a : Alphabet) :
  SYMBOL_COUNT (AlphabetTraits a) <= 2 ^ SYMBOL_SIZE (AlphabetTraits a) /\
  (forall v : uint8,
     0 <= v < SYMBOL_COUNT (AlphabetTraits a) ->
     0 <= v < 2 ^ SYMBOL_SIZE (AlphabetTraits a) /\
     Z.land v (Z.ones (SYMBOL_SIZE (AlphabetTraits a))) = v /\
     (forall i, SYMBOL_SIZE (AlphabetTraits a) <= i -> Z.testbit v i = false)).
Proof.
  assert (Hle : SYMBOL_COUNT (AlphabetTraits a) <= 2 ^ SYMBOL_SIZE (AlphabetTraits a))
    by (destruct a; vm_compute; discriminate).
  assert (Hs : 0 <= SYMBOL_SIZE (AlphabetTraits a)) by (destruct a; simpl; lia).
  split; [exact Hle|].
  intros v Hv.
  assert (Hr : 0 <= v < 2 ^ SYMBOL_SIZE (AlphabetTraits a)) by lia.
  split; [exact Hr|]. split.
  - rewrite Z.land_ones by exact Hs. apply Z.mod_small. exact Hr.
  - intros i Hi.
    destruct (Z.eq_dec v 0) as [->|Hnz]; [apply Z.bits_0|].
    apply Z.bits_above_log2; [lia|].
    apply Z.lt_le_trans with (SYMBOL_SIZE (AlphabetTraits a)); [|exact Hi].
    apply Z.log2_lt_pow2; lia.
Qed.

(** ** The codec tables *)

Lemma symbol_table_length (a : Alphabet) :
  Z.of_nat (length (symbol_table a)) = SYMBOL_COUNT (AlphabetTraits a).
Proof. by_alphabet a. Qed.

Lemma symbol_table_NoDup (a : Alphabet) : NoDup (symbol_table a).
Proof. destruct a; refine (bool_decide_unpack _ _); vm_compute; exact I. Qed.

Lemma symbol_table_no_NUL (a : Alphabet) : NUL ∉ symbol_table a.
Proof. destruct a; refine (bool_decide_unpack _ _); vm_compute; exact I. Qed.

Lemma table_index_lookup (table : list ascii) (i : nat) (c : ascii) :
  NoDup table -> table !! i = Some c -> table_index c table = Some i.
Proof.
  intros Hnd. revert i.
  induction Hnd as [|x rest Hx _ IH]; intros i Hi; [discriminate|].
  destruct i as [|i]; simpl in *.
  - injection Hi as ->. now rewrite Ascii.eqb_refl.
  - destruct (Ascii.eqb_spec c x) as [->|_].
    + exfalso. apply Hx. apply list_elem_of_lookup. now exists i.
    + now rewrite (IH i Hi).
Qed.

Lemma table_index_Some (table : list ascii) (i : nat) (c : ascii) :
  table_index c table = Some i -> table !! i = Some c.
Proof.
  revert i. induction table as [|x rest IH]; intros i; simpl; [discriminate|].
  destruct (Ascii.eqb_spec c x) as [->|_].
  - now intros [= <-].
  - destruct (table_index c rest) as [j|]; simpl; [|discriminate].
    intros [= <-]. now apply IH.
Qed.

Lemma table_index_None (table : list ascii) (c : ascii) :
  table_index c table = None <-> c ∉ table.
Proof.
  induction table as [|x rest IH]; simpl.
  - split; [intros _; apply not_elem_of_nil | reflexivity].
  - rewrite not_elem_of_cons.
    destruct (Ascii.eqb_spec c x) as [->|Hne].
    + split; [discriminate | intros [[] _]; reflexivity].
    + destruct (table_index c rest); simpl.
      * split; [discriminate | intros [_ H]; now apply IH in H].
      * split; [intros _; split; [exact Hne | now apply IH] | reflexivity].
Qed.

Lemma to_char_Some (a : Alphabet) (v : uint8) (c : ascii) :
  to_char a v = Some c <->
  0 <= v < SYMBOL_COUNT (AlphabetTraits a) /\ symbol_table a !! Z.to_nat v = Some c.
Proof.
  unfold to_char.
  destruct (Z.leb_spec 0 v), (Z.ltb_spec v (SYMBOL_COUNT (AlphabetTraits a)));
    simpl; split; try discriminate; try (intros [? _]; lia).
  - intros H'; split; [lia | exact H'].
  - now intros [_ H'].
Qed.

Lemma to_char_in_range (a : Alphabet) (v : uint8) :
  0 <= v < SYMBOL_COUNT (AlphabetTraits a) -> is_Some (to_char a v).
Proof.
  intros Hv.
  assert (Hl : is_Some (symbol_table a !! Z.to_nat v)).
  { apply lookup_lt_is_Some. pose proof (symbol_table_length a). lia. }
  destruct Hl as [c Hc]. exists c. apply to_char_Some. now split.
Qed.

Lemma to_char_out_of_range (a : Alphabet) (v : uint8) :
  ~ 0 <= v < SYMBOL_COUNT (AlphabetTraits a) -> to_char a v = None.
Proof.
  intros Hv. destruct (to_char a v) as [c|] eqn:E; [|reflexivity].
  apply to_char_Some in E. tauto.
Qed.

Lemma to_char_not_NUL (a : Alphabet) (v : uint8) :
  to_char a v <> Some NUL.
Proof.
  intros H. apply to_char_Some in H as [_ H].
  apply (symbol_table_no_NUL a). apply list_elem_of_lookup. eauto.
Qed.

Section CodecProperties.

Variable sentinel : Alphabet -> uint8.

Lemma from_char_of_table (a : Alphabet) (i : nat) (c : ascii) :
  symbol_table a !! i = Some c -> from_char sentinel a c = Z.of_nat i.
Proof.
  intros Hi. unfold from_char.
  now rewrite (table_index_lookup _ _ _ (symbol_table_NoDup a) Hi).
Qed.

Lemma from_char_outside (a : Alphabet) (c : ascii) :
  c ∉ symbol_table a -> from_char sentinel a c = sentinel a.
Proof.
  intros Hc. unfold from_char. apply table_index_None in Hc. now rewrite Hc.
Qed.

(** Decoding stays inside the alphabet as soon as the sentinel does. *)
Lemma from_char_range (a : Alphabet) (c : ascii) :
  0 <= sentinel a < SYMBOL_COUNT (AlphabetTraits a) ->
  0 <= from_char sentinel a c < SYMBOL_COUNT (AlphabetTraits a).
Proof.
  intros Hs. unfold from_char.
  destruct (table_index c (symbol_table a)) as [i|] eqn:E; [|exact Hs].
  apply table_index_Some, lookup_lt_Some in E.
  pose proof (symbol_table_length a). lia.
Qed.

Lemma to_char_decodes (a : Alphabet) (v : uint8) (c : ascii) :
  to_char a v = Some c -> from_char sentinel a c = v.
Proof.
  intros H. apply to_char_Some in H as [Hv Hc].
  rewrite (from_char_of_table _ _ _ Hc). lia.
Qed.

(** C1: for every alphabet and every code below its SYMBOL_COUNT, encoding
    succeeds and decoding the character it produced gives the code back. *)
Theorem from_char_to_char (a : Alphabet) (v : uint8) :
  0 <= v < SYMBOL_COUNT (AlphabetTraits a) ->
  from_char sentinel a <$> to_char a v = Some v.
Proof.
  intros Hv. destruct (to_char_in_range a v Hv) as [c Hc].
  rewrite Hc. simpl. f_equal. now apply to_char_decodes.
Qed.

End CodecProperties.

(** ** Bulk conversion *)

Lemma store_Some {T : Type} (buf : list T) (i : nat) (x : T) :
  (i < length buf)%nat -> store buf i x = Some (<[i:=x]> buf).
Proof. intros Hi. unfold store. now rewrite decide_True. Qed.

Lemma store_None {T : Type} (buf : list T) (i : nat) (x : T) :
  (length buf <= i)%nat -> store buf i x = None.
Proof. intros Hi. unfold store. rewrite decide_False; [reflexivity | lia]. Qed.

(** Writing the cell that follows a prefix [done]. *)
Lemma store_next {T : Type} (done todo : list T) (y x : T) :
  store (done ++ y :: todo) (length done) x = Some ((done ++ [x]) ++ todo).
Proof.
  rewrite store_Some by (rewrite length_app; simpl; lia).
  f_equal. rewrite <- (Nat.add_0_r (length done)), insert_app_r. simpl.
  now rewrite <- app_assoc.
Qed.

Lemma store_length {T : Type} (buf buf' : list T) (i : nat) (x : T) :
  store buf i x = Some buf' -> length buf' = length buf.
Proof.
  unfold store. destruct (decide _); [|discriminate].
  intros [= <-]. apply length_insert.
Qed.

(** The encode loop, started after a prefix [done] of the destination,
    overwrites the next cells with the characters [cs] of the source. *)
Lemma to_string_loop_app {It : Type} `{!Iterator It uint8}
    (a : Alphabet) (begin : It) (cs done todo : list ascii) :
  (length cs <= length todo)%nat ->
  (forall j, (j < length cs)%nat ->
     deref begin (length done + j) ≫= to_char a = cs !! j) ->
  to_string_loop a begin (length done) (length cs) (done ++ todo)
  = Some (done ++ cs ++ drop (length cs) todo).
Proof.
  revert done todo.
  induction cs as [|c cs IH]; intros done todo Hcap Hsrc; simpl.
  - now rewrite drop_0.
  - destruct todo as [|y todo]; simpl in Hcap; [lia|].
    pose proof (Hsrc O ltac:(simpl; lia)) as H0.
    rewrite Nat.add_0_r in H0. simpl in H0.
    destruct (deref begin (length done)) as [s|]; simpl in H0; [|discriminate].
    simpl. rewrite H0. simpl.
    rewrite store_next. simpl.
    replace (S (length done)) with (length (done ++ [c]))
      by (rewrite length_app; simpl; lia).
    rewrite IH.
    + now rewrite <- app_assoc.
    + lia.
    + intros j Hj. rewrite length_app. simpl.
      replace (length done + 1 + j)%nat with (length done + S j)%nat by lia.
      apply (Hsrc (S j)). simpl. lia.
Qed.

Section BulkProperties.

Variable sentinel : Alphabet -> uint8.

(** The decode loop over [n] characters of [mem] from position [begin]. *)
Lemma from_string_loop_app (a : Alphabet) (mem : list ascii) (begin n : nat)
    (done todo : list uint8) :
  (begin + length done + n <= length mem)%nat ->
  (n <= length todo)%nat ->
  from_string_loop sentinel a mem begin (length done) n (done ++ todo)
  = Some (done
          ++ (from_char sentinel a <$> take n (drop (begin + length done) mem))
          ++ drop n todo).
Proof.
  revert done todo.
  induction n as [|n IH]; intros done todo Hmem Hcap; simpl.
  - now rewrite drop_0.
  - destruct todo as [|y todo]; simpl in Hcap; [lia|].
    destruct (lookup_lt_is_Some_2 mem (begin + length done)) as [c Hc]; [lia|].
    rewrite Hc. simpl. rewrite store_next. simpl.
    replace (S (length done)) with (length (done ++ [from_char sentinel a c]))
      by (rewrite length_app; simpl; lia).
    rewrite IH.
    + rewrite length_app. simpl.
      rewrite <- app_assoc. simpl. do 2 f_equal.
      rewrite (drop_S _ _ _ Hc). simpl.
      now replace (begin + (length done + 1))%nat
        with (S (begin + length done)) by lia.
    + rewrite length_app. simpl. lia.
    + lia.
Qed.

(** The terminated decode loop over the characters [pre] that come before
    the first terminator. *)
Lemma from_string_nul_loop_app (a : Alphabet) (pre post : list ascii)
    (done todo : list uint8) :
  NUL ∉ pre ->
  (length pre <= length todo)%nat ->
  from_string_nul_loop sentinel a (pre ++ NUL :: post) (length done) (done ++ todo)
  = Some (done ++ (from_char sentinel a <$> pre) ++ drop (length pre) todo).
Proof.
  revert done todo.
  induction pre as [|c pre IH]; intros done todo Hnul Hcap; simpl.
  - now rewrite drop_0.
  - apply not_elem_of_cons in Hnul as [Hc Hpre].
    destruct (Ascii.eqb_spec c NUL) as [E|_]; [now subst|].
    destruct todo as [|y todo]; simpl in Hcap; [lia|].
    rewrite store_next. simpl.
    replace (S (length done)) with (length (done ++ [from_char sentinel a c]))
      by (rewrite length_app; simpl; lia).
    rewrite IH by (trivial || lia).
    now rewrite <- app_assoc.
Qed.

(** A memory that holds no terminator is read past its end. *)
Lemma from_string_nul_loop_unterminated (a : Alphabet) (chars : list ascii)
    (i : nat) (symbols : list uint8) :
  NUL ∉ chars -> from_string_nul_loop sentinel a chars i symbols = None.
Proof.
  revert i symbols.
  induction chars as [|c chars IH]; intros i symbols Hnul; simpl; [reflexivity|].
  apply not_elem_of_cons in Hnul as [Hc Hrest].
  destruct (Ascii.eqb_spec c NUL) as [E|_]; [now subst|].
  destruct (store symbols i _); simpl; [now apply IH | reflexivity].
Qed.

(** Encoding the first [n] codes of a sequence, all of them valid. *)
Lemma to_string_n_valid (a : Alphabet) (syms : list uint8) (n : nat)
    (string : list ascii) :
  (n <= length syms)%nat ->
  Forall (fun s => 0 <= s < SYMBOL_COUNT (AlphabetTraits a)) (take n syms) ->
  (n <= length string)%nat ->
  exists cs,
    Forall2 (fun s c => to_char a s = Some c) (take n syms) cs /\
    to_string_n a syms n string = Some (cs ++ drop n string).
Proof.
  intros Hn Hvalid Hcap.
  assert (Hsome : is_Some (mapM (to_char a) (take n syms))).
  { apply mapM_is_Some. eapply Forall_impl; [exact Hvalid|].
    intros s Hs. now apply to_char_in_range. }
  destruct Hsome as [cs Hcs]. apply mapM_Some in Hcs.
  exists cs. split; [exact Hcs|].
  assert (Hlen : length cs = n).
  { rewrite <- (Forall2_length _ _ _ Hcs), length_take. lia. }
  unfold to_string_n. rewrite <- Hlen.
  apply (to_string_loop_app a syms cs [] string); [lia|].
  intros j Hj. simpl.
  destruct (lookup_lt_is_Some_2 cs j Hj) as [c Hc].
  destruct (Forall2_lookup_r _ _ _ _ _ Hcs Hc) as (s & Hs & Hsc).
  rewrite lookup_take_lt in Hs by lia.
  unfold deref, list_Iterator. rewrite Hs, Hc. exact Hsc.
Qed.

(** C6: for every alphabet, every length [n] and every sequence whose
    first [n] codes are valid, encode-range succeeds, and decode-range over
    the [n] characters it wrote puts the original [n] codes at the start of
    the destination, leaving the rest of it as it was. *)
Theorem to_string_from_string_roundtrip (a : Alphabet) (syms : list uint8)
    (n : nat) (string : list ascii) (symbols : list uint8) :
  (n <= length syms)%nat ->
  Forall (fun s => 0 <= s < SYMBOL_COUNT (AlphabetTraits a)) (take n syms) ->
  (n <= length string)%nat ->
  (n <= length symbols)%nat ->
  exists string',
    to_string_n a syms n string = Some string' /\
    from_string_range sentinel a string' 0 n symbols
    = Some (take n syms ++ drop n symbols).
Proof.
  intros Hn Hvalid Hstr Hsym.
  destruct (to_string_n_valid a syms n string Hn Hvalid Hstr) as (cs & Hcs & Hto).
  exists (cs ++ drop n string). split; [exact Hto|].
  assert (Hlen : length cs = n).
  { rewrite <- (Forall2_length _ _ _ Hcs), length_take. lia. }
  unfold from_string_range. rewrite Nat.sub_0_r.
  rewrite (from_string_loop_app a _ 0 n [] symbols);
    [|simpl; rewrite length_app; lia | exact Hsym].
  simpl. rewrite drop_0. rewrite <- Hlen at 1. rewrite take_app_length.
  do 2 f_equal.
  clear -Hcs. induction Hcs as [|s c ss cs Hsc _ IH]; [reflexivity|].
  now rewrite fmap_cons, IH, (to_char_decodes sentinel a s c Hsc).
Qed.

(** C7: on a buffer whose first terminator is at offset [length pre], the
    terminated decode-range writes the codes of the characters [pre] that
    come before the terminator, one per character, into the first
    [length pre] cells of the destination and writes nothing else. *)
Theorem from_string_nul_stops_at_terminator (a : Alphabet)
    (pre post : list ascii) (symbols : list uint8) :
  NUL ∉ pre ->
  (length pre <= length symbols)%nat ->
  from_string_nul sentinel a (pre ++ NUL :: post) symbols
  = Some ((from_char sentinel a <$> pre) ++ drop (length pre) symbols).
Proof.
  intros Hnul Hcap.
  exact (from_string_nul_loop_app a pre post [] symbols Hnul Hcap).
Qed.

Lemma from_string_nul_unterminated (a : Alphabet) (chars : list ascii)
    (symbols : list uint8) :
  NUL ∉ chars -> from_string_nul sentinel a chars symbols = None.
Proof. apply from_string_nul_loop_unterminated. Qed.

(** ** Lazy adaptors *)

(** C8: reading the character adaptor at position [i] is [to_char] of the
    [i]-th underlying symbol, and reading the symbol adaptor at position
    [i] is [from_char] of the [i]-th underlying character; a position past
    the underlying sequence has no value in either. *)
Theorem lazy_adaptor_deref (a : Alphabet) :
  (forall (SymIt : Type) (I : Iterator SymIt uint8) (it : SymIt) (i : nat),
     deref (to_string_it a it) i = deref it i ≫= to_char a) /\
  (forall (CharIt : Type) (I : Iterator CharIt ascii) (it : CharIt) (i : nat),
     deref (from_string_it sentinel a it) i = from_char sentinel a <$> deref it i).
Proof.
  split; intros It I it i.
  - reflexivity.
  - unfold deref at 1, transform_iterator_Iterator. simpl.
    unfold from_char_functor. now destruct (deref it i).
Qed.

End BulkProperties.

(** ** Worked instances

    One admissible sentinel: the last code of each alphabet (N for DNA_N
    and DNA_IUPAC, X for PROTEIN). *)

Definition last_code_sentinel (a : Alphabet) : uint8 :=
  SYMBOL_COUNT (AlphabetTraits a) - 1.

Definition chars (s : string) : list ascii := list_ascii_of_string s.

Example to_string_DNA :
  to_string_n DNA [0; 1; 2; 3; 0] 5 (chars "-----") = Some (chars "ACGTA").
Proof. reflexivity. Qed.

Example from_string_DNA :
  from_string_range last_code_sentinel DNA (chars "ACGTA") 0 5 [9; 9; 9; 9; 9]
  = Some [0; 1; 2; 3; 0].
Proof. reflexivity. Qed.

Example from_string_inner_range :
  from_string_range last_code_sentinel DNA_N (chars "xxACNTxx") 2 6 [9; 9; 9; 9; 9]
  = Some [0; 1; 4; 3; 9].
Proof. reflexivity. Qed.

Example from_string_no_capacity :
  from_string_range last_code_sentinel DNA (chars "ACGTA") 0 5 [9; 9; 9] = None.
Proof. reflexivity. Qed.

Example IUPAC_equals_sign :
  from_char last_code_sentinel DNA_IUPAC "=" = 0 /\ to_char DNA_IUPAC 0 = Some "="%char.
Proof. split; reflexivity. Qed.

Example DNA_N_code_of_N :
  from_char last_code_sentinel DNA_N "N" = 4.
Proof. reflexivity. Qed.

Example to_char_past_the_table : to_char DNA 4 = None.
Proof. reflexivity. Qed.

Example from_char_lowercase :
  from_char last_code_sentinel DNA_N "a" = last_code_sentinel DNA_N.
Proof. reflexivity. Qed.

Example from_string_nul_DNA :
  from_string_nul last_code_sentinel DNA (chars "ACG" ++ NUL :: chars "TA") [9; 9; 9; 9; 9]
  = Some [0; 1; 2; 9; 9].
Proof. reflexivity. Qed.

Example lazy_chars_DNA :
  deref (to_string_it DNA [0; 1; 2; 3]) 2 = Some "G"%char /\
  deref (to_string_it DNA [0; 1; 2; 3]) 4 = None.
Proof. split; reflexivity. Qed.

Example lazy_over_lazy :
  deref (from_string_it last_code_sentinel PROTEIN (to_string_it PROTEIN [21; 22; 23])) 1
  = Some 22.
Proof. reflexivity. Qed.

Lemma from_char_to_char_witness :
  0 <= 4 < SYMBOL_COUNT (AlphabetTraits DNA_N) /\
  from_char last_code_sentinel DNA_N <$> to_char DNA_N 4 = Some 4.
Proof.
  assert (H : 0 <= 4 < SYMBOL_COUNT (AlphabetTraits DNA_N)) by (simpl; lia).
  exact (conj H (from_char_to_char last_code_sentinel DNA_N 4 H)).
Defined.

Lemma to_string_from_string_roundtrip_witness :
  exists string',
    to_string_n PROTEIN [0; 23; 7; 11; 5] 3 (chars "----") = Some string' /\
    from_string_range last_code_sentinel PROTEIN string' 0 3 [9; 9; 9; 9]
    = Some (take 3 [0; 23; 7; 11; 5] ++ drop 3 [9; 9; 9; 9]).
Proof.
  apply (to_string_from_string_roundtrip last_code_sentinel PROTEIN
           [0; 23; 7; 11; 5] 3 (chars "----") [9; 9; 9; 9]).
  - simpl. lia.
  - simpl. repeat constructor; simpl; lia.
  - simpl. lia.
  - simpl. lia.
Defined.

Lemma from_string_nul_stops_at_terminator_witness :
  from_string_nul last_code_sentinel DNA_N
    (chars "GNAT" ++ NUL :: chars "CC") [9; 9; 9; 9; 9; 9]
  = Some ((from_char last_code_sentinel DNA_N <$> chars "GNAT")
          ++ drop (length (chars "GNAT")) [9; 9; 9; 9; 9; 9]).
Proof.
  apply (from_string_nul_stops_at_terminator last_code_sentinel DNA_N
           (chars "GNAT") (chars "CC") [9; 9; 9; 9; 9; 9]).
  - refine (bool_decide_unpack _ _). vm_compute. exact I.
  - simpl. lia.
Defined.

(** * Further properties *)

(** ** Identifiers and widths *)

(** X1: whatever value it is given, the runtime query answers 2, 4 or 8,
    a width that divides both a byte and a 32-bit word, so a word always
    holds a whole number of symbols. *)
Theorem bits_per_symbol_divides_word (v : uint32) :
  (bits_per_symbol v = 2 \/ bits_per_symbol v = 4 \/ bits_per_symbol v = 8) /\
  8 mod bits_per_symbol v = 0 /\
  32 mod bits_per_symbol v = 0.
Proof.
  unfold bits_per_symbol.
  repeat match goal with
  | |- context [if ?b then _ else _] => destruct b
  end; (split; [auto | split; reflexivity]).
Qed.

(** X2: the answer 2 identifies DNA and the answer 4 identifies DNA_N or
    DNA_IUPAC; the answer 8 is given to PROTEIN and to every value that
    names no alphabet alike. *)
Theorem bits_per_symbol_preimage (v : uint32) :
  (bits_per_symbol v = 2 <-> v = Alphabet_value DNA) /\
  (bits_per_symbol v = 4 <->
     v = Alphabet_value DNA_N \/ v = Alphabet_value DNA_IUPAC) /\
  (bits_per_symbol v = 8 <->
     v = Alphabet_value PROTEIN \/ forall a, v <> Alphabet_value a).
Proof.
  assert (Hnone : (forall a, v <> Alphabet_value a) <->
                  v <> 0 /\ v <> 1 /\ v <> 2 /\ v <> 3).
  { split.
    - intros H. repeat split;
        [apply (H DNA) | apply (H DNA_N) | apply (H DNA_IUPAC) | apply (H PROTEIN)].
    - intros (? & ? & ? & ?) a. destruct a; simpl; assumption. }
  rewrite Hnone. unfold bits_per_symbol. simpl.
  repeat match goal with
  | |- context [v =? ?n] => destruct (Z.eqb_spec v n)
  end; lia.
Qed.

(** X3: the enumerator values fill the range 0..3 without gaps and no two
    alphabets share a value, so a stored value in that range names exactly
    one alphabet. *)
Theorem Alphabet_value_bijection (v : uint32) :
  0 <= v <= 3 <->
  exists a, Alphabet_value a = v /\ forall b, Alphabet_value b = v -> b = a.
Proof.
  split.
  - intros Hv.
    assert (Hcases : v = 0 \/ v = 1 \/ v = 2 \/ v = 3) by lia.
    destruct Hcases as [-> | [-> | [-> | ->]]];
      [exists DNA | exists DNA_N | exists DNA_IUPAC | exists PROTEIN];
      (split; [reflexivity | intros b; destruct b; simpl; congruence]).
  - intros (a & <- & _). apply Alphabet_value_range.
Qed.

(** X4: every traits width is 2, 4 or 8 bits, so it divides a byte and a
    32-bit word, and every valid symbol code fits the [uint8] in which the
    codec passes it. *)
Theorem AlphabetTraits_packing (a : Alphabet) :
  (SYMBOL_SIZE (AlphabetTraits a) = 2 \/ SYMBOL_SIZE (AlphabetTraits a) = 4 \/
   SYMBOL_SIZE (AlphabetTraits a) = 8) /\
  8 mod SYMBOL_SIZE (AlphabetTraits a) = 0 /\
  32 mod SYMBOL_SIZE (AlphabetTraits a) = 0 /\
  (forall v, 0 <= v < SYMBOL_COUNT (AlphabetTraits a) -> uint8_range v).
Proof.
  split; [destruct a; simpl; auto|].
  split; [destruct a; reflexivity|].
  split; [destruct a; reflexivity|].
  intros v Hv. unfold uint8_range. destruct a; simpl in *; lia.
Qed.

(** X5: widths grow with the alphabets: an alphabet with no more symbols
    than another never has the wider code. *)
Theorem SYMBOL_SIZE_monotone (a b : Alphabet) :
  SYMBOL_COUNT (AlphabetTraits a) <= SYMBOL_COUNT (AlphabetTraits b) ->
  SYMBOL_SIZE (AlphabetTraits a) <= SYMBOL_SIZE (AlphabetTraits b).
Proof. destruct a, b; simpl; lia. Qed.

Lemma SYMBOL_SIZE_monotone_witness :
  SYMBOL_SIZE (AlphabetTraits DNA_N) <= SYMBOL_SIZE (AlphabetTraits PROTEIN).
Proof. apply (SYMBOL_SIZE_monotone DNA_N PROTEIN). simpl. lia. Defined.

(** X6: the width the runtime query gives for an alphabet holds every
    valid code of that alphabet. *)
Theorem bits_per_symbol_holds_codes (a : Alphabet) (v : uint8) :
  0 <= v < SYMBOL_COUNT (AlphabetTraits a) ->
  v < 2 ^ bits_per_symbol (Alphabet_value a).
Proof.
  intros Hv.
  destruct a; simpl in Hv;
    [change (v < 4) | change (v < 16) | change (v < 16) | change (v < 256)];
    lia.
Qed.

Lemma bits_per_symbol_holds_codes_witness :
  23 < 2 ^ bits_per_symbol (Alphabet_value PROTEIN).
Proof. apply (bits_per_symbol_holds_codes PROTEIN 23). simpl. lia. Defined.

(** ** The scalar codec, both ways *)

Lemma to_char_of_index (a : Alphabet) (c : ascii) (i : nat) :
  table_index c (symbol_table a) = Some i -> to_char a (Z.of_nat i) = Some c.
Proof.
  intros Hi. apply table_index_Some in Hi.
  apply to_char_Some. rewrite Nat2Z.id. split; [|exact Hi].
  apply lookup_lt_Some in Hi. pose proof (symbol_table_length a). lia.
Qed.

Lemma table_index_member (table : list ascii) (c : ascii) :
  c ∈ table -> exists i, table_index c table = Some i.
Proof.
  intros Hc. destruct (table_index c table) as [i|] eqn:E; [now exists i|].
  apply table_index_None in E. contradiction.
Qed.

Lemma deref_make_transform_iterator {It A B : Type} `{!Iterator It A}
    (it : It) (f : A -> option B) (i : nat) :
  deref (make_transform_iterator it f) i = deref it i ≫= f.
Proof. reflexivity. Qed.

Lemma symbol_table_DNA : symbol_table DNA = ["A"; "C"; "G"; "T"]%char.
Proof. reflexivity. Qed.

Section CodecBothWays.

Variable sentinel : Alphabet -> uint8.

Lemma encode_decoded (a : Alphabet) (c : ascii) :
  c ∈ symbol_table a -> to_char a (from_char sentinel a c) = Some c.
Proof.
  intros Hc. destruct (table_index_member _ _ Hc) as [i Hi].
  unfold from_char. rewrite Hi. now apply to_char_of_index.
Qed.

Lemma decode_encoded_list (a : Alphabet) (ss : list uint8) (cs : list ascii) :
  Forall2 (fun s c => to_char a s = Some c) ss cs ->
  from_char sentinel a <$> cs = ss.
Proof.
  induction 1 as [|s c ss cs Hsc _ IH]; [reflexivity|].
  now rewrite fmap_cons, IH, (to_char_decodes sentinel a s c Hsc).
Qed.

(** X7: decoding a letter of the alphabet gives a valid code, whatever the
    sentinel is, and encoding that code gives the letter back. *)
Theorem to_char_from_char (a : Alphabet) (c : ascii) :
  c ∈ symbol_table a ->
  0 <= from_char sentinel a c < SYMBOL_COUNT (AlphabetTraits a) /\
  to_char a (from_char sentinel a c) = Some c.
Proof.
  intros Hc. pose proof (encode_decoded a c Hc) as H.
  split; [|exact H]. now apply to_char_Some in H.
Qed.

(** X8: the codec is one-to-one in both directions: two codes with the
    same character are the same code, and two letters of the alphabet with
    the same code are the same letter. *)
Theorem codec_injective (a : Alphabet) :
  (forall v w c, to_char a v = Some c -> to_char a w = Some c -> v = w) /\
  (forall c d, c ∈ symbol_table a -> d ∈ symbol_table a ->
     from_char sentinel a c = from_char sentinel a d -> c = d).
Proof.
  split.
  - intros v w c Hv Hw.
    rewrite <- (to_char_decodes sentinel a v c Hv).
    now rewrite <- (to_char_decodes sentinel a w c Hw).
  - intros c d Hc Hd E.
    pose proof (encode_decoded a c Hc) as H1.
    pose proof (encode_decoded a d Hd) as H2.
    rewrite E in H1. congruence.
Qed.

(** X9: DNA is an initial part of DNA_N: a valid DNA code encodes to the
    same character in both, and a DNA letter decodes to the same code in
    both. *)
Theorem DNA_within_DNA_N :
  (forall v, 0 <= v < SYMBOL_COUNT (AlphabetTraits DNA) ->
     to_char DNA_N v = to_char DNA v) /\
  (forall c, c ∈ symbol_table DNA ->
     from_char sentinel DNA_N c = from_char sentinel DNA c).
Proof.
  split.
  - intros v Hv. simpl in Hv.
    assert (Hcases : v = 0 \/ v = 1 \/ v = 2 \/ v = 3) by lia.
    destruct Hcases as [-> | [-> | [-> | ->]]]; reflexivity.
  - intros c Hc. rewrite symbol_table_DNA in Hc.
    repeat (apply elem_of_cons in Hc as [-> | Hc]; [reflexivity|]).
    now apply elem_of_nil in Hc.
Qed.

(** X10: in DNA_IUPAC each base has the one-bit code [1 << v] of its DNA
    code [v]: shifting a valid DNA code into a bit mask keeps its
    character. *)
Theorem DNA_IUPAC_shift (v : uint8) :
  0 <= v < SYMBOL_COUNT (AlphabetTraits DNA) ->
  to_char DNA_IUPAC (Z.shiftl 1 v) = to_char DNA v.
Proof.
  intros Hv. simpl in Hv.
  assert (Hcases : v = 0 \/ v = 1 \/ v = 2 \/ v = 3) by lia.
  destruct Hcases as [-> | [-> | [-> | ->]]]; reflexivity.
Qed.

(** ** Lazy adaptors composed *)

(** X11: decoding lazily over a lazy encoding reads the underlying symbol
    back wherever that symbol is a valid code. *)
Theorem lazy_roundtrip {It : Type} `{!Iterator It uint8}
    (a : Alphabet) (it : It) (i : nat) (s : uint8) :
  deref it i = Some s ->
  0 <= s < SYMBOL_COUNT (AlphabetTraits a) ->
  deref (from_string_it sentinel a (to_string_it a it)) i = Some s.
Proof.
  intros Hs Hv. destruct (to_char_in_range a s Hv) as [c Hc].
  unfold from_string_it, to_string_it.
  rewrite !deref_make_transform_iterator, Hs. simpl.
  unfold to_char_functor, from_char_functor. rewrite Hc. simpl.
  f_equal. now apply to_char_decodes.
Qed.



(** X14: encoding lazily over a lazy decoding reads the underlying
    character back wherever that character is a letter of the alphabet. *)
Theorem lazy_reverse_roundtrip {It : Type} `{!Iterator It ascii}
    (a : Alphabet) (it : It) (i : nat) (c : ascii) :
  deref it i = Some c ->
  c ∈ symbol_table a ->
  deref (to_string_it a (from_string_it sentinel a it)) i = Some c.
Proof.
  intros Hc Hin.
  unfold from_string_it, to_string_it.
  rewrite !deref_make_transform_iterator, Hc. simpl.
  unfold to_char_functor. now apply encode_decoded.
Qed.

End CodecBothWays.

(** ** Bulk conversion, further *)

(** Modelled from the spec: [to_string<ALPHABET>(begin, end, string)],
    declared at alphabet.h lines 133-137 and defined in alphabet_inl.h,
    which is not among the sources.  The two iterators are positions
    [begin] and [end_] in the symbol memory [mem]; the range form is the
    counted form with count [end_ - begin]. *)
Definition to_string_range (a : Alphabet) (mem : list uint8)
    (begin end_ : nat) (string : list ascii) : option (list ascii) :=
  to_string_n a (drop begin mem) (end_ - begin) string.

(** What a finished encode loop has done to the destination. *)
Lemma to_string_loop_inv {It : Type} `{!Iterator It uint8}
    (a : Alphabet) (begin : It) (n i : nat) (string string' : list ascii) :
  to_string_loop a begin i n string = Some string' ->
  length string' = length string /\
  (forall j, (i <= j < i + n)%nat ->
     exists (s : uint8) (c : ascii),
       deref begin j = Some s /\ to_char a s = Some c /\ string' !! j = Some c) /\
  (forall j, (j < i \/ i + n <= j)%nat -> string' !! j = string !! j).
Proof.
  revert i string.
  induction n as [|n IH]; intros i string Hrun; simpl in Hrun.
  - injection Hrun as <-. split; [reflexivity|]. split; [intros j Hj; lia|reflexivity].
  - destruct (deref begin i) as [s|] eqn:Hs; simpl in Hrun; [|discriminate].
    destruct (to_char a s) as [c|] eqn:Hc; simpl in Hrun; [|discriminate].
    unfold store in Hrun.
    destruct (decide (i < length string)%nat) as [Hi|_]; simpl in Hrun; [|discriminate].
    destruct (IH _ _ Hrun) as (Hlen & Hnew & Hold).
    rewrite length_insert in Hlen.
    split; [exact Hlen|]. split.
    + intros j Hj. destruct (decide (j = i)) as [->|Hne].
      * exists s, c. split; [exact Hs|]. split; [exact Hc|].
        rewrite Hold by lia. now apply list_lookup_insert_eq.
      * apply Hnew. lia.
    + intros j Hj. rewrite Hold by lia. apply list_lookup_insert_ne. lia.
Qed.

Section BulkFurther.

Variable sentinel : Alphabet -> uint8.

(** X15: when encode-range returns, the destination has kept its length,
    its first [n] cells hold what the character view of the source reads
    at the same positions, and every later cell is as it was. *)
Theorem to_string_n_is_lazy_view {It : Type} `{!Iterator It uint8}
    (a : Alphabet) (begin : It) (n : nat) (string string' : list ascii) :
  to_string_n a begin n string = Some string' ->
  length string' = length string /\
  (forall i, (i < n)%nat ->
     is_Some (string' !! i) /\ string' !! i = deref (to_string_it a begin) i) /\
  (forall i, (n <= i)%nat -> string' !! i = string !! i).
Proof.
  intros Hrun. destruct (to_string_loop_inv a begin n 0 string string' Hrun)
    as (Hlen & Hnew & Hold).
  split; [exact Hlen|]. split.
  - intros i Hi. destruct (Hnew i ltac:(lia)) as (s & c & Hs & Hc & Hi').
    split; [now exists c|].
    unfold to_string_it. rewrite deref_make_transform_iterator, Hs, Hi'.
    simpl. unfold to_char_functor. now rewrite Hc.
  - intros i Hi. apply Hold. lia.
Qed.

(** X16: decode-range over positions inside the character memory, into a
    destination with room for them, always returns: it writes the code of
    each character of the range in order, foreign characters included, and
    leaves the rest of the destination as it was. *)
Theorem from_string_range_map (a : Alphabet) (mem : list ascii)
    (begin end_ : nat) (symbols : list uint8) :
  (begin <= end_)%nat ->
  (end_ <= length mem)%nat ->
  (end_ - begin <= length symbols)%nat ->
  from_string_range sentinel a mem begin end_ symbols
  = Some ((from_char sentinel a <$> take (end_ - begin) (drop begin mem))
          ++ drop (end_ - begin) symbols).
Proof.
  intros Hbe Hmem Hcap. unfold from_string_range.
  pose proof (from_string_loop_app sentinel a mem begin (end_ - begin) [] symbols)
    as H.
  simpl in H. rewrite Nat.add_0_r in H. apply H; lia.
Qed.

(** The terminated loop and the counted loop agree up to the terminator,
    whatever the capacity of the destination. *)
Lemma from_string_nul_loop_as_range (a : Alphabet)
    (front pre post : list ascii) (begin i : nat) (symbols : list uint8) :
  NUL ∉ pre ->
  (begin + i = length front)%nat ->
  from_string_nul_loop sentinel a (pre ++ NUL :: post) i symbols
  = from_string_loop sentinel a (front ++ pre ++ NUL :: post) begin i
      (length pre) symbols.
Proof.
  revert front i symbols.
  induction pre as [|c pre IH]; intros front i symbols Hnul Hpos; simpl.
  - reflexivity.
  - apply not_elem_of_cons in Hnul as [Hc Hpre].
    destruct (Ascii.eqb_spec c NUL) as [E|_]; [now subst|].
    rewrite Hpos, list_lookup_middle by reflexivity. simpl.
    destruct (store symbols i (from_char sentinel a c)) as [symbols'|]; simpl;
      [|reflexivity].
    rewrite (IH (front ++ [c]) (S i) symbols' Hpre).
    + now rewrite <- app_assoc.
    + rewrite length_app. simpl. lia.
Qed.

(** X17: on a buffer whose first terminator is at offset [length pre], the
    terminated decode-range is the decode-range over positions [0] to
    [length pre]: the same result, and no result in the same cases. *)
Theorem from_string_nul_as_range (a : Alphabet) (pre post : list ascii)
    (symbols : list uint8) :
  NUL ∉ pre ->
  from_string_nul sentinel a (pre ++ NUL :: post) symbols
  = from_string_range sentinel a (pre ++ NUL :: post) 0 (length pre) symbols.
Proof.
  intros Hnul. unfold from_string_nul, from_string_range.
  rewrite Nat.sub_0_r.
  exact (from_string_nul_loop_as_range a [] pre post 0 0 symbols Hnul eq_refl).
Qed.

(** X18: what encode-range wrote can be closed with a terminator and read
    back by the terminated decode-range: no character it writes is the
    terminator, so decoding stops after exactly the [n] codes encoded. *)
Theorem to_string_then_from_string_nul (a : Alphabet) (syms : list uint8)
    (n : nat) (string string' string'' : list ascii) (symbols : list uint8) :
  to_string_n a syms n string = Some string' ->
  store string' n NUL = Some string'' ->
  (n <= length symbols)%nat ->
  from_string_nul sentinel a string'' symbols
  = Some (take n syms ++ drop n symbols).
Proof.
  intros Hrun Hst Hcap.
  destruct (to_string_loop_inv a syms n 0 string string' Hrun) as (_ & Hnew & _).
  unfold store in Hst.
  destruct (decide (n < length string')%nat) as [Hn|_]; [|discriminate].
  injection Hst as <-.
  rewrite insert_take_drop by exact Hn.
  assert (Hlen : length (take n string') = n) by (rewrite length_take; lia).
  assert (Hnul : NUL ∉ take n string').
  { intros Hin. apply list_elem_of_lookup in Hin as [j Hj].
    apply lookup_take_Some in Hj as [Hj Hjn].
    destruct (Hnew j ltac:(lia)) as (s & c & _ & Hc & Hj').
    rewrite Hj in Hj'. injection Hj' as <-. exact (to_char_not_NUL a s Hc). }
  pose proof (from_string_nul_loop_app sentinel a (take n string')
                (drop (S n) string') [] symbols Hnul ltac:(lia)) as H.
  simpl in H. unfold from_string_nul. rewrite H, Hlen. do 2 f_equal.
  apply list_eq. intros j. rewrite list_lookup_fmap.
  destruct (decide (j < n)%nat) as [Hj|Hj].
  - rewrite !lookup_take_lt by exact Hj.
    destruct (Hnew j ltac:(lia)) as (s & c & Hs & Hc & Hj').
    change (syms !! j = Some s) in Hs. rewrite Hj', Hs. simpl.
    f_equal. now apply to_char_decodes.
  - now rewrite !lookup_take_ge by lia.
Qed.

(** X19: encode-range over a sequence returns exactly when the sequence
    has [n] symbols, those [n] are valid codes and the destination has [n]
    cells. *)
Theorem to_string_n_defined_iff (a : Alphabet) (syms : list uint8) (n : nat)
    (string : list ascii) :
  is_Some (to_string_n a syms n string) <->
  (n <= length syms)%nat /\
  Forall (fun s => 0 <= s < SYMBOL_COUNT (AlphabetTraits a)) (take n syms) /\
  (n <= length string)%nat.
Proof.
  split.
  - intros [string' Hrun].
    destruct (to_string_loop_inv a syms n 0 string string' Hrun)
      as (Hlen & Hnew & _).
    assert (Hall : forall j, (j < n)%nat ->
              (j < length syms)%nat /\ (j < length string)%nat /\
              forall s : uint8, syms !! j = Some s ->
                0 <= s < SYMBOL_COUNT (AlphabetTraits a)).
    { intros j Hj. destruct (Hnew j ltac:(lia)) as (s & c & Hs & Hc & Hj').
      change (syms !! j = Some s) in Hs.
      split; [now apply lookup_lt_Some in Hs|].
      split; [rewrite <- Hlen; now apply lookup_lt_Some in Hj'|].
      intros s' Hs'. rewrite Hs in Hs'. injection Hs' as <-.
      now apply to_char_Some in Hc. }
    split; [|split].
    + destruct n as [|n]; [lia|]. destruct (Hall n ltac:(lia)) as (? & _). lia.
    + apply Forall_lookup. intros j s Hj.
      apply lookup_take_Some in Hj as [Hj Hjn].
      destruct (Hall j Hjn) as (_ & _ & Hv). now apply Hv.
    + destruct n as [|n]; [lia|]. destruct (Hall n ltac:(lia)) as (_ & ? & _). lia.
  - intros (Hn & Hvalid & Hcap).
    destruct (to_string_n_valid a syms n string Hn Hvalid Hcap) as (cs & _ & H).
    rewrite H. now eexists.
Qed.

(** X20: the range form of encode-range over positions of a symbol memory
    that hold valid codes returns, and decode-range over the characters it
    wrote gives the symbols of the range back. *)
Theorem to_string_range_roundtrip (a : Alphabet) (mem : list uint8)
    (begin end_ : nat) (string : list ascii) (symbols : list uint8) :
  (begin <= end_)%nat ->
  (end_ <= length mem)%nat ->
  Forall (fun s => 0 <= s < SYMBOL_COUNT (AlphabetTraits a))
         (take (end_ - begin) (drop begin mem)) ->
  (end_ - begin <= length string)%nat ->
  (end_ - begin <= length symbols)%nat ->
  exists string',
    to_string_range a mem begin end_ string = Some string' /\
    from_string_range sentinel a string' 0 (end_ - begin) symbols
    = Some (take (end_ - begin) (drop begin mem) ++ drop (end_ - begin) symbols).
Proof.
  intros Hbe Hmem Hvalid Hstr Hsym.
  set (n := (end_ - begin)%nat) in *.
  assert (Hn : (n <= length (drop begin mem))%nat)
    by (rewrite length_drop; unfold n; lia).
  destruct (to_string_n_valid a (drop begin mem) n string Hn Hvalid Hstr)
    as (cs & Hcs & Hto).
  exists (cs ++ drop n string). split; [exact Hto|].
  assert (Hlen : length cs = n).
  { rewrite <- (Forall2_length _ _ _ Hcs), length_take. lia. }
  unfold from_string_range. rewrite Nat.sub_0_r.
  pose proof (from_string_loop_app sentinel a (cs ++ drop n string) 0 n []
                symbols) as H.
  simpl in H. rewrite H by (rewrite ?length_app; lia).
  rewrite drop_0. rewrite <- Hlen at 1. rewrite take_app_length.
  now rewrite (decode_encoded_list sentinel a _ _ Hcs).
Qed.

(** X21: the round trip the other way: decode-range over characters that
    are all letters of the alphabet, followed by encode-range over the
    codes it wrote, gives the characters back. *)
Theorem from_string_then_to_string (a : Alphabet) (mem : list ascii)
    (begin end_ : nat) (symbols : list uint8) (string : list ascii) :
  (begin <= end_)%nat ->
  (end_ <= length mem)%nat ->
  Forall (fun c => c ∈ symbol_table a) (take (end_ - begin) (drop begin mem)) ->
  (end_ - begin <= length symbols)%nat ->
  (end_ - begin <= length string)%nat ->
  exists symbols',
    from_string_range sentinel a mem begin end_ symbols = Some symbols' /\
    to_string_n a symbols' (end_ - begin) string
    = Some (take (end_ - begin) (drop begin mem) ++ drop (end_ - begin) string).
Proof.
  intros Hbe Hmem Hletters Hsym Hstr.
  set (n := (end_ - begin)%nat) in *.
  set (cs := take n (drop begin mem)) in *.
  assert (Hlen : length cs = n).
  { unfold cs. rewrite length_take, length_drop. unfold n. lia. }
  exists ((from_char sentinel a <$> cs) ++ drop n symbols). split.
  - unfold from_string_range. fold n.
    pose proof (from_string_loop_app sentinel a mem begin n [] symbols) as H.
    simpl in H. rewrite Nat.add_0_r in H. apply H; unfold n; lia.
  - unfold to_string_n. rewrite <- Hlen.
    apply (to_string_loop_app a _ cs [] string); [lia|].
    intros j Hj. simpl. unfold deref, list_Iterator.
    rewrite lookup_app_l by (rewrite length_fmap; exact Hj).
    rewrite list_lookup_fmap.
    destruct (lookup_lt_is_Some_2 cs j Hj) as [c Hc]. rewrite Hc. simpl.
    apply encode_decoded.
    rewrite Forall_lookup in Hletters. exact (Hletters j c Hc).
Qed.

(** When the terminated loop returns, it met a terminator and the
    destination had a cell for every character before it. *)
Lemma from_string_nul_loop_defined (a : Alphabet) (chars : list ascii)
    (i : nat) (symbols : list uint8) :
  is_Some (from_string_nul_loop sentinel a chars i symbols) ->
  exists pre post,
    chars = pre ++ NUL :: post /\ (NUL ∉ pre) /\
    (pre = [] \/ (i + length pre <= length symbols)%nat).
Proof.
  revert i symbols.
  induction chars as [|c chars IH]; intros i symbols [r Hr]; simpl in Hr;
    [discriminate|].
  destruct (Ascii.eqb_spec c NUL) as [->|Hc].
  - exists [], chars. split; [reflexivity|].
    split; [apply not_elem_of_nil | now left].
  - destruct (store symbols i (from_char sentinel a c)) as [symbols'|] eqn:Hst;
      simpl in Hr; [|discriminate].
    pose proof (store_length _ _ _ _ Hst) as Hlen.
    assert (Hi : (i < length symbols)%nat).
    { unfold store in Hst. destruct (decide (i < length symbols)%nat);
        [assumption | discriminate]. }
    destruct (IH (S i) symbols' (ex_intro _ r Hr)) as (pre & post & -> & Hnul & Hcap).
    exists (c :: pre), post. split; [reflexivity|].
    split; [apply not_elem_of_cons; split; [congruence | exact Hnul]|].
    right. destruct Hcap as [Hp | Hcap]; [rewrite Hp|]; simpl; lia.
Qed.

(** X22: the terminated decode-range returns exactly when the buffer holds
    a terminator and the destination has a cell for every character before
    the first one; with no terminator it runs off the buffer. *)
Theorem from_string_nul_defined_iff (a : Alphabet) (chars : list ascii)
    (symbols : list uint8) :
  is_Some (from_string_nul sentinel a chars symbols) <->
  exists pre post,
    chars = pre ++ NUL :: post /\ (NUL ∉ pre) /\
    (length pre <= length symbols)%nat.
Proof.
  split.
  - intros H. apply from_string_nul_loop_defined in H
      as (pre & post & -> & Hnul & Hcap).
    exists pre, post. split; [reflexivity|]. split; [exact Hnul|].
    destruct Hcap as [Hp | Hcap]; [rewrite Hp; simpl|]; lia.
  - intros (pre & post & -> & Hnul & Hcap).
    unfold from_string_nul.
    pose proof (from_string_nul_loop_app sentinel a pre post [] symbols Hnul Hcap)
      as H.
    simpl in H. rewrite H. now eexists.
Qed.

End BulkFurther.

(** ** Instances of the further properties *)

Ltac decide_now := refine (bool_decide_unpack _ _); vm_compute; exact I.

Lemma to_char_from_char_witness :
  0 <= from_char last_code_sentinel PROTEIN "W" < SYMBOL_COUNT (AlphabetTraits PROTEIN) /\
  to_char PROTEIN (from_char last_code_sentinel PROTEIN "W") = Some "W"%char.
Proof. apply (to_char_from_char last_code_sentinel PROTEIN "W"). decide_now. Defined.

Lemma DNA_IUPAC_shift_witness :
  to_char DNA_IUPAC (Z.shiftl 1 2) = to_char DNA 2.
Proof. apply (DNA_IUPAC_shift 2). simpl. lia. Defined.

Lemma lazy_roundtrip_witness :
  deref (from_string_it last_code_sentinel DNA_IUPAC
           (to_string_it DNA_IUPAC [15; 0; 7])) 2 = Some 7.
Proof.
  apply (lazy_roundtrip last_code_sentinel DNA_IUPAC [15; 0; 7] 2 7).
  - reflexivity.
  - simpl. lia.
Defined.

Lemma lazy_reverse_roundtrip_witness :
  deref (to_string_it DNA_N
           (from_string_it last_code_sentinel DNA_N (chars "GANT"))) 2
  = Some "N"%char.
Proof.
  apply (lazy_reverse_roundtrip last_code_sentinel DNA_N (chars "GANT") 2 "N").
  - reflexivity.
  - decide_now.
Defined.

Lemma to_string_n_is_lazy_view_witness :
  length (chars "GA--") = length (chars "----") /\
  (forall i, (i < 2)%nat ->
     is_Some (chars "GA--" !! i) /\
     chars "GA--" !! i = deref (to_string_it DNA [2; 0; 1]) i) /\
  (forall i, (2 <= i)%nat -> chars "GA--" !! i = chars "----" !! i).
Proof.
  apply (to_string_n_is_lazy_view DNA [2; 0; 1] 2 (chars "----") (chars "GA--")).
  reflexivity.
Defined.

Lemma from_string_range_map_witness :
  from_string_range last_code_sentinel DNA_N (chars "xxAC?Txx") 2 6 [9; 9; 9; 9; 9]
  = Some ((from_char last_code_sentinel DNA_N
             <$> take (6 - 2) (drop 2 (chars "xxAC?Txx")))
          ++ drop (6 - 2) [9; 9; 9; 9; 9]).
Proof.
  apply (from_string_range_map last_code_sentinel DNA_N (chars "xxAC?Txx") 2 6
           [9; 9; 9; 9; 9]); simpl; lia.
Defined.

Lemma from_string_nul_as_range_witness :
  from_string_nul last_code_sentinel DNA (chars "TAG" ++ NUL :: chars "C") [9; 9]
  = from_string_range last_code_sentinel DNA (chars "TAG" ++ NUL :: chars "C")
      0 (length (chars "TAG")) [9; 9].
Proof.
  apply (from_string_nul_as_range last_code_sentinel DNA (chars "TAG") (chars "C")
           [9; 9]).
  decide_now.
Defined.

Lemma to_string_then_from_string_nul_witness :
  from_string_nul last_code_sentinel DNA_N (chars "NAC" ++ NUL :: chars "-")
    [9; 9; 9; 9]
  = Some (take 3 [4; 0; 1; 2] ++ drop 3 [9; 9; 9; 9]).
Proof.
  apply (to_string_then_from_string_nul last_code_sentinel DNA_N [4; 0; 1; 2] 3
           (chars "-----") (chars "NAC--") (chars "NAC" ++ NUL :: chars "-")
           [9; 9; 9; 9]).
  - reflexivity.
  - reflexivity.
  - simpl. lia.
Defined.

Lemma to_string_range_roundtrip_witness :
  exists string',
    to_string_range DNA_IUPAC [0; 15; 3; 8; 1] 1 4 (chars "----") = Some string' /\
    from_string_range last_code_sentinel DNA_IUPAC string' 0 (4 - 1) [9; 9; 9]
    = Some (take (4 - 1) (drop 1 [0; 15; 3; 8; 1]) ++ drop (4 - 1) [9; 9; 9]).
Proof.
  apply (to_string_range_roundtrip last_code_sentinel DNA_IUPAC [0; 15; 3; 8; 1]
           1 4 (chars "----") [9; 9; 9]).
  - lia.
  - simpl. lia.
  - simpl. repeat constructor; simpl; lia.
  - simpl. lia.
  - simpl. lia.
Defined.

Lemma from_string_then_to_string_witness :
  exists symbols',
    from_string_range last_code_sentinel PROTEIN (chars "..WXYZ.") 2 6 [9; 9; 9; 9]
    = Some symbols' /\
    to_string_n PROTEIN symbols' (6 - 2) (chars "-----")
    = Some (take (6 - 2) (drop 2 (chars "..WXYZ.")) ++ drop (6 - 2) (chars "-----")).
Proof.
  apply (from_string_then_to_string last_code_sentinel PROTEIN (chars "..WXYZ.")
           2 6 [9; 9; 9; 9] (chars "-----")).
  - lia.
  - simpl. lia.
  - simpl. repeat constructor; decide_now.
  - simpl. lia.
  - simpl. lia.
Defined.
